(** * MyMmap: the node placement and layout engine of the mind-map editor

    A shallow embedding of the placement code of [src/32.py]:
    the grid-bucketed spatial hash [_SpatialHash], the free-slot search
    [_find_free_slot] with its collision test [_is_pos_free], and the two
    bulk layouts [arrange_radial] and [arrange_tree].

    Numbers.  Python floats are idealised as exact rationals ([Q]): every
    arithmetic operator of the source is the exact operation, [//] and [%]
    are floor division and its remainder, [int] of a floored value is
    [Qfloor], [round] is round-half-to-even.  The transcendental functions
    of [math] and the builtin [hash] are parameters of the model (record
    [MathEnv]); no theorem assumes more of them than it states. *)

From Stdlib Require Import QArith Qround Qabs Qminmax Lqa ZArith Lia.
From stdpp Require Import gmap strings list fin_maps.

Local Open Scope Z_scope.

(** ** Exact arithmetic helpers *)

(** [x // c]: floor of the quotient. *)
Definition floordiv (x c : Q) : Z := Qfloor (x / c).

(** [range(lo, hi + 1)] over the integers. *)
Definition zrange (lo hi : Z) : list Z :=
  map (fun i : nat => lo + Z.of_nat i) (seq 0 (Z.to_nat (hi + 1 - lo))).

(** ** The spatial hash ([class _SpatialHash]) *)

Module SpatialHash.

Abbreviation key := (Z * Z)%type.

(** [self.cell], [self.grid] (a [defaultdict(set)]) and [self.radius]. *)
Record t := mk {
  cell : Z;
  grid : gmap key (gset string);
  radius : gmap string Q
}.

(** [__init__]: [self.cell = max(40, int(cell))], empty grid and cache. *)
Definition init (c : Z) : t := mk (Z.max 40 c) ∅ ∅.

(** [_keys_for]: the cells of the bounding box of the circle, in the
    order the nested loops yield them. *)
Definition keys_for (c : Z) (x y r : Q) : list key :=
  let x0 := floordiv (x - r) (inject_Z c) in
  let x1 := floordiv (x + r) (inject_Z c) in
  let y0 := floordiv (y - r) (inject_Z c) in
  let y1 := floordiv (y + r) (inject_Z c) in
  ix ← zrange x0 x1; iy ← zrange y0 y1; [(ix, iy)].

(** The two ways the source reads the [defaultdict] grid.  Indexing,
    [self.grid[key]], materialises an empty bucket for a missing key;
    [self.grid.get(key, set())] hands out a fresh empty set and leaves the
    mapping as it is. *)
Definition dd_getitem (k : key) (g : gmap key (gset string))
  : gset string * gmap key (gset string) :=
  match g !! k with
  | Some b => (b, g)
  | None => (∅, <[k := ∅]> g)
  end.

Definition dd_get (k : key) (g : gmap key (gset string))
  : gset string * gmap key (gset string) :=
  (default ∅ (g !! k), g).

(** [self.grid[key].add(name)]. *)
Definition bucket_add (name : string) (g : gmap key (gset string)) (k : key)
  : gmap key (gset string) :=
  let '(b, g') := dd_getitem k g in <[k := {[name]} ∪ b]> g'.

(** The body shared by [remove] and [move]:
    [s = self.grid.get(key); if s: s.discard(name); if not s: pop]. *)
Definition bucket_discard (name : string) (g : gmap key (gset string)) (k : key)
  : gmap key (gset string) :=
  match g !! k with
  | Some s =>
      if decide (s = ∅) then g
      else let s' := s ∖ {[name]} in
           if decide (s' = ∅) then delete k g else <[k := s']> g
  | None => g
  end.

Definition insert (name : string) (x y r : Q) (s : t) : t :=
  mk (cell s)
     (foldl (bucket_add name) (grid s) (keys_for (cell s) x y r))
     (<[name := r]> (radius s)).

Definition remove (name : string) (x y : Q) (s : t) : t :=
  let r := default 0%Q (radius s !! name) in
  mk (cell s)
     (foldl (bucket_discard name) (grid s) (keys_for (cell s) x y r))
     (delete name (radius s)).

(** [move]: the two set differences are walked as filtered key lists
    (the keys of one footprint are pairwise distinct and the bucket
    updates of distinct keys commute, so the iteration order of the
    Python sets does not matter). *)
Definition move (name : string) (oldx oldy newx newy : Q) (s : t) : t :=
  let r := default 0%Q (radius s !! name) in
  let old_keys := keys_for (cell s) oldx oldy r in
  let new_keys := keys_for (cell s) newx newy r in
  let g1 := foldl (bucket_discard name) (grid s)
              (filter (fun k => k ∉ new_keys) old_keys) in
  let g2 := foldl (bucket_add name) g1
              (filter (fun k => k ∉ old_keys) new_keys) in
  mk (cell s) g2 (radius s).

(** [neighbors], with the grid threaded through the loop as the source
    reads it: each step is one [self.grid.get(key, set())], and the query
    hands back the index it ends with. *)
Definition neighbors_st (x y r : Q) (s : t) : gset string * t :=
  let '(hits, g) :=
    foldl (fun '(hits, g) k => let '(b, g') := dd_get k g in (hits ∪ b, g'))
          (∅, grid s) (keys_for (cell s) x y r) in
  (hits, mk (cell s) g (radius s)).

Definition neighbors (x y r : Q) (s : t) : gset string :=
  fst (neighbors_st x y r s).

(** The content of a bucket, empty when the cell has none. *)
Definition bucket (g : gmap (Z * Z) (gset string)) (k : Z * Z) : gset string :=
  default ∅ (g !! k).

End SpatialHash.

(** Squared distance between two points. *)
Definition dist2 (x1 y1 x2 y2 : Q) : Q :=
  ((x1 - x2) * (x1 - x2) + (y1 - y2) * (y1 - y2))%Q.

(** Exact circle/circle overlap: the centres are no further apart than
    the sum of the radii (touching circles count as overlapping). *)
Definition circles_overlap (x1 y1 r1 x2 y2 r2 : Q) : Prop :=
  (dist2 x1 y1 x2 y2 <= (r1 + r2) * (r1 + r2))%Q.


(** ** The index invariant and the operation traces *)

Module Index.
Import SpatialHash.

(** The coordinates an id is registered at: the position last handed to
    [insert] or [move] for it (the caller keeps them in [_pos_cache]). *)
Abbreviation registry := (gmap string (Q * Q)).

(** The square of the plane the grid cell [k] stands for: [cell] wide,
    closed on its low sides. *)
Definition in_cell (c : Z) (k : key) (u v : Q) : Prop :=
  (inject_Z c * inject_Z (fst k) <= u
   ∧ u < inject_Z c * (inject_Z (fst k) + 1)
   ∧ inject_Z c * inject_Z (snd k) <= v
   ∧ v < inject_Z c * (inject_Z (snd k) + 1))%Q.

(** The circle of centre [(x, y)] and radius [r] covers the cell [k]:
    some point of the cell lies in the closed disc. *)
Definition circle_covers (c : Z) (x y r : Q) (k : key) : Prop :=
  ∃ u v, in_cell c k u v ∧ (dist2 u v x y <= r * r)%Q.

(** The bounding box of the circle covers the cell [k]: some point of the
    cell lies in the square [[x - r, x + r] x [y - r, y + r]]. *)
Definition box_covers (c : Z) (x y r : Q) (k : key) : Prop :=
  ∃ u v, in_cell c k u v ∧
         (x - r <= u ∧ u <= x + r ∧ y - r <= v ∧ v <= y + r)%Q.

(** The data-model invariant, for a notion of covering: the cell size is
    positive, the registered ids are those of the radius cache, the cached
    radii are not negative, and an id sits in a cell exactly when it is
    registered and its registered circle covers the cell (so an id absent
    from the cache sits in no cell). *)
Definition InvFor (covers : Z → Q → Q → Q → key → Prop)
    (reg : registry) (s : t) : Prop :=
  0 < cell s ∧
  dom reg = dom (radius s) ∧
  (∀ n r, radius s !! n = Some r → (0 <= r)%Q) ∧
  ∀ n k, n ∈ bucket (grid s) k ↔
    ∃ x y r, reg !! n = Some (x, y) ∧ radius s !! n = Some r ∧
             covers (cell s) x y r k.

(** The invariant as the data model words it: the cells are those the
    circle covers. *)
Definition CircleInv : registry → t → Prop := InvFor circle_covers.

(** The invariant with the cells of the circle's bounding box. *)
Definition BoxInv : registry → t → Prop := InvFor box_covers.

(** The half of the invariant the queries rely on: a registered id sits
    in every cell of its footprint. *)
Definition Covered (reg : registry) (s : t) : Prop :=
  dom reg = dom (radius s) ∧
  ∀ n x y r k, reg !! n = Some (x, y) → radius s !! n = Some r →
    k ∈ keys_for (cell s) x y r → n ∈ bucket (grid s) k.

(** The index operations a caller can issue. *)
Inductive op :=
| Insert (n : string) (x y r : Q)
| Remove (n : string) (x y : Q)
| Move (n : string) (oldx oldy newx newy : Q).

(** One operation on the index, with the registry following it.  A
    [move] of an id the cache does not know registers nothing. *)
Definition run_op (o : op) (st : registry * t) : registry * t :=
  let '(reg, s) := st in
  match o with
  | Insert n x y r => (<[n := (x, y)]> reg, insert n x y r s)
  | Remove n x y => (delete n reg, remove n x y s)
  | Move n ox oy nx ny =>
      (match reg !! n with
       | Some _ => <[n := (nx, ny)]> reg
       | None => reg
       end, move n ox oy nx ny s)
  end.

(** [remove] and [move] are given the coordinates the id is registered
    at. *)
Definition op_ok (reg : registry) (o : op) : Prop :=
  match o with
  | Insert _ _ _ _ => True
  | Remove n x y => reg !! n = Some (x, y)
  | Move n ox oy _ _ => reg !! n = Some (ox, oy)
  end.

(** A trace of operations, each one admissible where it is issued. *)
Fixpoint run (ops : list op) (st : registry * t) : registry * t :=
  match ops with
  | [] => st
  | o :: ops => run ops (run_op o st)
  end.

Fixpoint trace_ok (ops : list op) (st : registry * t) : Prop :=
  match ops with
  | [] => True
  | o :: ops => op_ok (fst st) o ∧ trace_ok ops (run_op o st)
  end.

End Index.

(** ** Numbers of the placement code *)

Module Num.
Local Open Scope Q_scope.

Definition Qltb (a b : Q) : bool := negb (Qle_bool b a).

(** Python's [a % m] on floats for a positive modulus: the remainder of
    floor division, in [[0, m)]. *)
Definition fmod (a m : Q) : Q := a - m * inject_Z (Qfloor (a / m)).

(** Python's [round]: to the nearest integer, ties to the even one. *)
Definition py_round (q : Q) : Z :=
  let f := Qfloor q in
  match Qcompare (q - inject_Z f) (1 # 2) with
  | Lt => f
  | Gt => (f + 1)%Z
  | Eq => if Z.even f then f else (f + 1)%Z
  end.

(** [(d) ** 0.5 < s], decided exactly: the square root of a non-negative
    [d] is below [s] when [s] is positive and [d] is below its square. *)
Definition sqrt_lt (d s : Q) : bool := Qltb 0 s && Qltb d (s * s).

(** [sorted(l)] on numbers (stable insertion sort, ascending). *)
Fixpoint insert_asc (x : Q) (l : list Q) : list Q :=
  match l with
  | [] => [x]
  | y :: l' => if Qltb y x then y :: insert_asc x l' else x :: l
  end.

Definition sorted (l : list Q) : list Q := foldr insert_asc [] l.

(** [l.sort(key=lambda x: x[0], reverse=True)]: stable, descending on
    the first component. *)
Fixpoint insert_desc (x : Q * Q) (l : list (Q * Q)) : list (Q * Q) :=
  match l with
  | [] => [x]
  | y :: l' => if Qltb (fst x) (fst y) then y :: insert_desc x l' else x :: l
  end.

Definition sort_desc (l : list (Q * Q)) : list (Q * Q) := foldr insert_desc [] l.

Definition sumQ (l : list Q) : Q := foldr Qplus 0 l.

End Num.

(** ** The [math] module and [hash], as parameters *)

(** The values the interpreter supplies: [math.pi], the transcendental
    functions the placement code calls, and the two tuple hashes of the
    jitter, [hash((name, ang, r))] and [hash((r, ang, name))]. *)
Record MathEnv := {
  pi : Q;
  cos : Q → Q;
  sin : Q → Q;
  atan2 : Q → Q → Q;
  asin : Q → Q;
  sqrt : Q → Q;
  hash_name_ang_r : string → Q → Q → Z;
  hash_r_ang_name : Q → Q → string → Z
}.

Module Geo.
Import Num.
Local Open Scope Q_scope.

Section WithEnv.
Variable E : MathEnv.

Definition twopi : Q := 2 * pi E.

(** [math.radians] and [math.degrees]. *)
Definition radians (d : Q) : Q := d * (pi E / 180).
Definition degrees (a : Q) : Q := a * (180 / pi E).

(** [_angle_normalize]. *)
Definition _angle_normalize (a : Q) : Q :=
  let a := fmod a twopi in
  if Qltb a 0 then a + twopi else a.

(** [_angle_between(p_center, p)]. *)
Definition _angle_between (p_center p : Q * Q) : Q :=
  _angle_normalize (atan2 E (snd p - snd p_center) (fst p - fst p_center)).

End WithEnv.
End Geo.

(** ** The scene: nodes, graph, settings *)

(** A [MindMapNode] as the placement code sees it: its name, its position
    and the size of its bounding rectangle. *)
Record NodeItem := {
  name : string;
  pos : Q * Q;
  width : Q;
  height : Q
}.

(** The part of the main window the placement code reads and writes:
    [self.nodes], the graph (adjacency in iteration order, and the
    [last_child_angle] attribute of its nodes), the tree depth
    [_get_node_level] reports for a name, the spatial hash and the
    settings.  [snap_step] is the grid setting [_snap] divides by. *)
Record Scene := {
  nodes : gmap string NodeItem;
  adj : gmap string (list string);
  last_child_angle : gmap string Q;
  _get_node_level : string → Z;
  _spatial : SpatialHash.t;
  snap_step : Q;
  TARGET_EDGE : Q;
  MIN_CHORD_RATIO : Q
}.

Definition set_last_child_angle (n : string) (a : Q) (sc : Scene) : Scene :=
  {| nodes := nodes sc; adj := adj sc;
     last_child_angle := <[n := a]> (last_child_angle sc);
     _get_node_level := _get_node_level sc; _spatial := _spatial sc;
     snap_step := snap_step sc; TARGET_EDGE := TARGET_EDGE sc;
     MIN_CHORD_RATIO := MIN_CHORD_RATIO sc |}.

(** ** Free-slot search ([_find_free_slot] and its helpers) *)

Module Slot.
Import Num Geo.
Local Open Scope Q_scope.

(** How a [for] loop with an early [return] ends: it returns a value, it
    runs to its end, or an iteration raises. *)
Inductive outcome (B : Type) : Type :=
  | Found (b : B)
  | NotFound
  | Raised.
Arguments Found {B} b.
Arguments NotFound {B}.
Arguments Raised {B}.

(** The loop over [l]: the first iteration that returns or raises ends
    it. *)
Fixpoint first_found {A B : Type} (f : A → outcome B) (l : list A) : outcome B :=
  match l with
  | [] => NotFound
  | a :: l =>
      match f a with
      | Found b => Found b
      | Raised => Raised
      | NotFound => first_found f l
      end
  end.

Section WithEnv.
Variable E : MathEnv.

(** [_calculate_average_node_size]. *)
Definition _calculate_average_node_size (sc : Scene) : Q :=
  let items := snd <$> map_to_list (nodes sc) in
  match items with
  | [] => 140
  | _ =>
      let count := inject_Z (Z.of_nat (length items)) in
      let avg_width := sumQ (width <$> items) / count in
      let avg_height := sumQ (height <$> items) / count in
      sqrt E (avg_width * avg_width + avg_height * avg_height)
  end.

(** [_node_radius_px(name)]; [None] is the source's [name=None], and an
    empty name is as falsy as [None]. *)
Definition _node_radius_px (sc : Scene) (nm : option string) : Q :=
  let diag :=
    match nm with
    | Some n =>
        match (if decide (n = "") then None else nodes sc !! n) with
        | Some it => sqrt E (width it * width it + height it * height it)
        | None => Qmax 120 (_calculate_average_node_size sc)
        end
    | None => Qmax 120 (_calculate_average_node_size sc)
    end in
  diag * (1 # 2) + 10.

(** [_snap]; [None] is the [ZeroDivisionError] of [p.x() / step] when the
    snap step is zero. *)
Definition _snap (sc : Scene) (p : Q * Q) : option (Q * Q) :=
  let step := snap_step sc in
  if Qeq_bool step 0 then None
  else Some (inject_Z (py_round (fst p / step)) * step,
             inject_Z (py_round (snd p / step)) * step).

(** The new node's collision radius in [_is_pos_free]. *)
Definition r_new (sc : Scene) (min_dist : Q) : Q :=
  Qmax (min_dist * (1 # 2)) (_node_radius_px sc None).

(** The test [_is_pos_free] makes on one name of the neighbourhood:
    [false] when the node of that name is closer than the two radii. *)
Definition clear_of (sc : Scene) (p : Q * Q) (min_dist : Q) (nm : string) : bool :=
  match nodes sc !! nm with
  | None => true
  | Some other =>
      let r_sum :=
        default (_node_radius_px sc (Some nm))
                (SpatialHash.radius (_spatial sc) !! nm) + r_new sc min_dist in
      let dx := fst (pos other) - fst p in
      let dy := snd (pos other) - snd p in
      negb (sqrt_lt (dx * dx + dy * dy) r_sum)
  end.

(** [_is_pos_free] (the branch through the spatial hash, which the window
    always owns). *)
Definition _is_pos_free (sc : Scene) (p : Q * Q) (min_dist : Q) : bool :=
  forallb (clear_of sc p min_dist)
    (elements (SpatialHash.neighbors (fst p) (snd p) (r_new sc min_dist)
                 (_spatial sc))).

(** [_neighbors_angles]. *)
Definition _neighbors_angles (sc : Scene) (anchor_item : NodeItem) : list Q :=
  let center := pos anchor_item in
  sorted
    (match adj sc !! name anchor_item with
     | Some nbs =>
         omap (fun nb => (fun it => _angle_between E center (pos it))
                           <$> nodes sc !! nb) nbs
     | None => []
     end).

(** Step 2 of [_find_free_slot]: the preferred direction. *)
Definition pref_angle_of (sc : Scene) (anchor_item : NodeItem) : Q :=
  let anchor_level := _get_node_level sc (name anchor_item) in
  let parent_name :=
    match adj sc !! name anchor_item with
    | Some nbs => find (fun nb => (_get_node_level sc nb <? anchor_level)%Z) nbs
    | None => None
    end in
  let pref_angle :=
    match parent_name with
    | Some p =>
        match (if decide (p = "") then None else nodes sc !! p) with
        | Some it => _angle_between E (pos it) (pos anchor_item)
        | None => 0
        end
    | None => 0
    end in
  let golden := radians E (13750776405003785 # 100000000000000) in
  match last_child_angle sc !! name anchor_item with
  | Some last => last + golden
  | None => pref_angle
  end.

(** The gaps between consecutive neighbour angles, the wrap-around gap
    last: [(gap, a)] for each angle [a]. *)
Definition gaps_of (angles : list Q) : list (Q * Q) :=
  let len := length angles in
  imap (fun i a =>
          let b := nth ((i + 1) mod len)%nat angles 0 in
          (if (i <? len - 1)%nat then b - a else b + twopi E - a, a))
       angles.

(** Step 3: the gap centre and the usable sector [(a0, gap_width)]. *)
Definition sector_of (angles : list Q) (pref_angle pad : Q) : Q * (Q * Q) :=
  match sort_desc (gaps_of angles) with
  | [] =>
      let a0 := _angle_normalize E (pref_angle - pi E / 2 + pad) in
      let a1 := _angle_normalize E (pref_angle + pi E / 2 - pad) in
      let gap_width := fmod (a1 - a0) (twopi E) in
      (_angle_normalize E pref_angle, (a0, gap_width))
  | (gap_width, a) :: _ =>
      let ang_center := _angle_normalize E (a + gap_width / 2) in
      let a0 := fmod (a + pad) (twopi E) in
      (ang_center, (a0, Qmax (1 # 1000) (gap_width - 2 * pad)))
  end.

(** [_need_radius]; [None] is Python's [float('inf')]. *)
Definition _need_radius (w chord : Q) : option Q :=
  let s := sin E (Qmax (1 # 1000000) w / 2) in
  if Qltb (1 # 1000000) s then Some (chord * (1 # 2) / s) else None.

(** The first ring radius [r0]; [None] when the source raises (the
    ceiling of an infinite value, or a division by a zero ring step). *)
Definition first_radius (base_radius ring : Q) (need_r : option Q) : option Q :=
  match need_r with
  | None => None
  | Some need_r =>
      let r0 := Qmax base_radius need_r in
      if Qltb base_radius r0 then
        if Qeq_bool ring 0 then None
        else Some (base_radius
                   + inject_Z (Qceiling ((r0 - base_radius) / ring)) * ring)
      else Some r0
  end.

(** The [while] loop of [angle_candidates], from [k] on; the fuel is the
    number of rounds left. *)
Fixpoint candidates_from (fuel : nat) (center_angle step limit : Q) (k : Z)
  : list Q :=
  match fuel with
  | O => []
  | S fuel =>
      if Qle_bool (inject_Z k * step) (limit + (1 # 1000000000)) then
        _angle_normalize E (center_angle + inject_Z k * step)
        :: _angle_normalize E (center_angle - inject_Z k * step)
        :: candidates_from fuel center_angle step limit (k + 1)
      else []
  end.

(** [angle_candidates]: for a positive step the loop makes at most
    [floor((limit + 1e-9) / step)] rounds. *)
Definition angle_candidates (center_angle limit_deg : Q) : list Q :=
  let step := radians E 10 in
  let limit := radians E (Qmax 10 limit_deg) in
  center_angle
  :: candidates_from (Z.to_nat (Qfloor ((limit + (1 # 1000000000)) / step)) + 1)
       center_angle step limit 1.

(** [in_sector]. *)
Definition in_sector (sector : Q * Q) (pref_angle cone_deg x : Q) : bool :=
  let '(a0, w) := sector in
  let hi := fmod (a0 + w) (twopi E) in
  let ok :=
    if Qle_bool (twopi E - (1 # 1000)) w then true
    else if Qltb hi a0 then Qle_bool a0 x || Qle_bool x hi
    else Qle_bool a0 x && Qle_bool x hi in
  let delta :=
    Qabs (fmod (_angle_normalize E (x - pref_angle) + pi E) (2 * pi E) - pi E) in
  ok && Qle_bool delta (radians E cone_deg).

(** The point the search tests for a candidate: the ring point, jittered
    beyond the first ring, then snapped ([None] when [_snap] raises). *)
Definition tested_point (sc : Scene) (anchor_item : NodeItem)
    (ring : Q) (ring_i : Z) (r ang : Q) : option (Q * Q) :=
  let center := pos anchor_item in
  let jitter := if (ring_i =? 0)%Z then 0 else Qmin 8 (ring * (2 # 100)) in
  let h1 := Z.land (hash_name_ang_r E (name anchor_item) ang r) 1023 in
  let h2 := Z.land (hash_r_ang_name E r ang (name anchor_item)) 1023 in
  let x := fst center + r * cos E ang + jitter * ((1 # 2) - inject_Z h1 / 1023) in
  let y := snd center + r * sin E ang + jitter * ((1 # 2) - inject_Z h2 / 1023) in
  _snap sc (x, y).

(** The arguments of [_find_free_slot], with the defaults of its
    signature (the editor calls it with the anchor alone). *)
Record Args := {
  base_radius : Q;
  ring : Q;
  min_chord : option Q;
  pad_deg : Q;
  global_min_dist : Q;
  max_rings : Z
}.

Definition default_args : Args :=
  {| base_radius := 160; ring := 160; min_chord := None; pad_deg := 8;
     global_min_dist := 140; max_rings := 6 |}.

(** What steps 1 to 3 of [_find_free_slot] settle before the search. *)
Record Plan := {
  p_base_radius : Q;
  p_ring : Q;
  p_pref_angle : Q;
  p_ang_center : Q;
  p_sector : Q * Q;
  p_r0 : Q;
  p_cone_deg : Q;
  p_angle_limit_deg : Q
}.

Definition plan (sc : Scene) (anchor_item : NodeItem) (a : Args) : option Plan :=
  let base_radius :=
    if Qle_bool (base_radius a) 0 then Qmax 120 (TARGET_EDGE sc * (9 # 10))
    else base_radius a in
  let ring := if Qle_bool (ring a) 0 then TARGET_EDGE sc else ring a in
  let min_chord :=
    match min_chord a with
    | Some c => c
    | None =>
        Qmax 80 (_calculate_average_node_size sc * (12 # 10) * MIN_CHORD_RATIO sc)
    end in
  let pad := radians E (Qmax 2 (pad_deg a)) in
  let angles := _neighbors_angles sc anchor_item in
  let pref_angle := pref_angle_of sc anchor_item in
  let '(ang_center, sector) := sector_of angles pref_angle pad in
  match first_radius base_radius ring (_need_radius (snd sector) min_chord) with
  | None => None
  | Some r0 =>
      Some {| p_base_radius := base_radius; p_ring := ring;
              p_pref_angle := pref_angle; p_ang_center := ang_center;
              p_sector := sector; p_r0 := r0;
              p_cone_deg := Qmax 60 (120 - 10 * inject_Z (Z.of_nat (length angles)));
              p_angle_limit_deg := Qmin 170 (degrees E (snd sector) * (1 # 2)) |}
  end.

(** One candidate of one ring: candidates outside the sector are skipped
    before any point is computed; the others are snapped, then tested. *)
Definition try_angle (sc : Scene) (anchor_item : NodeItem) (a : Args) (p : Plan)
    (ring_i : Z) (r ang : Q) : outcome (Q * Q) :=
  if in_sector (p_sector p) (p_pref_angle p) (p_cone_deg p) ang then
    match tested_point sc anchor_item (p_ring p) ring_i r ang with
    | None => Raised
    | Some pt =>
        if _is_pos_free sc pt (global_min_dist a) then Found (ang, r)
        else NotFound
    end
  else NotFound.

(** The candidates of one ring, in the order they are tried. *)
Definition try_ring (sc : Scene) (anchor_item : NodeItem) (a : Args) (p : Plan)
    (ring_i : Z) : outcome (Q * Q) :=
  let r := p_r0 p + inject_Z ring_i * p_ring p in
  first_found (try_angle sc anchor_item a p ring_i r)
    (angle_candidates (p_ang_center p) (p_angle_limit_deg p)).

(** The ring/angle search: the first accepted [(ang, r)], if any. *)
Definition search (sc : Scene) (anchor_item : NodeItem) (a : Args) (p : Plan)
  : outcome (Q * Q) :=
  first_found (try_ring sc anchor_item a p) (zrange 0 (max_rings a)).

(** The two [return] sites of [_find_free_slot] write the anchor's
    [last_child_angle] first, which needs the anchor in the graph. *)
Definition return_slot (sc : Scene) (anchor_item : NodeItem) (res : Q * Q)
  : option ((Q * Q) * Scene) :=
  match adj sc !! name anchor_item with
  | Some _ => Some (res, set_last_child_angle (name anchor_item) (fst res) sc)
  | None => None
  end.

(** [_find_free_slot]: the returned [(ang, r)] and the scene with the
    anchor's [last_child_angle] written; [None] when the source raises
    (see [first_radius], [_snap] and [return_slot]). *)
Definition _find_free_slot (sc : Scene) (anchor_item : NodeItem) (a : Args)
  : option ((Q * Q) * Scene) :=
  match plan sc anchor_item a with
  | None => None
  | Some p =>
      match search sc anchor_item a p with
      | Found res => return_slot sc anchor_item res
      | NotFound => return_slot sc anchor_item (p_ang_center p, p_r0 p + p_ring p)
      | Raised => None
      end
  end.

(** Where [add_node_smart_from_selection] puts the new node for a
    returned [(ang, radius)]. *)
Definition placed_point (sc : Scene) (anchor_item : NodeItem) (res : Q * Q)
  : option (Q * Q) :=
  let base := pos anchor_item in
  _snap sc (fst base + snd res * cos E (fst res),
            snd base + snd res * sin E (fst res)).

End WithEnv.
End Slot.

(** ** Scenes whose spatial index is up to date *)

(** The spatial hash of the scene is covered for the registry [reg], every
    registered id is a node of the scene standing where it is registered,
    and the cached radii are not negative (the editor registers
    [_node_radius_px], which is at least 10). *)
Definition index_consistent (reg : Index.registry) (sc : Scene) : Prop :=
  Index.Covered reg (_spatial sc) ∧
  0 < SpatialHash.cell (_spatial sc) ∧
  (∀ n x y, reg !! n = Some (x, y) →
     ∃ it, nodes sc !! n = Some it ∧ pos it = (x, y)) ∧
  (∀ n r, SpatialHash.radius (_spatial sc) !! n = Some r → (0 <= r)%Q).

(** ** A concrete interpreter environment

    Rational stand-ins for the [math] functions: [pi0] is a convergent of
    pi (within 3e-14 of it), the series are summed in fixed point with
    eighteen decimals, and the values are exact where the floating-point
    functions are exact ([cos 0 = 1], [sin 0 = 0], [atan2 0 x] is [0] for
    [x > 0] and [pi] for [x < 0], the square root of a perfect square).
    The concrete evaluations below run in this environment. *)

Module Env0.
Import Num.
Local Open Scope Q_scope.

Definition pi0 : Q := 5419351 # 1725033.

(** Fixed-point arithmetic with eighteen decimals: a value [v] stands for
    [v / 10^18]. *)
Definition scale : Z := 10 ^ 18.
Definition to_fp (q : Q) : Z := Qfloor (q * inject_Z scale).
Definition of_fp (v : Z) : Q := v # 1000000000000000000.
Definition rnd (q : Q) : Q := of_fp (to_fp q).

(** Alternating Taylor sum: [term] is the term of degree [k]. *)
Fixpoint taylor (n : nat) (k : Z) (term x2 acc : Z) : Z :=
  match n with
  | O => acc
  | S n =>
      let term' := (- (term * x2 / scale) / ((k + 1) * (k + 2)))%Z in
      taylor n (k + 2) term' x2 (acc + term')%Z
  end.

(** Reduce an angle to [[-pi, pi)]. *)
Definition reduce (x : Q) : Q := fmod (x + pi0) (2 * pi0) - pi0.

Definition cos0 (x : Q) : Q :=
  let x := to_fp (reduce x) in
  of_fp (taylor 18 0 scale (x * x / scale)%Z scale).

Definition sin0 (x : Q) : Q :=
  let x := to_fp (reduce x) in
  of_fp (taylor 18 1 x (x * x / scale)%Z x).

(** Euler's series for the arc tangent, for [|t| <= 1]. *)
Fixpoint euler (n : nat) (k : Z) (term u acc : Z) : Z :=
  match n with
  | O => acc
  | S n =>
      let term' := (term * (2 * k + 2) * u / scale / (2 * k + 3))%Z in
      euler n (k + 1) term' u (acc + term')%Z
  end.

Definition atan_small (t : Q) : Q :=
  let u := to_fp (t * t / (1 + t * t)) in
  let t0 := to_fp (t / (1 + t * t)) in
  of_fp (euler 70 0 t0 u t0).

Definition atan0 (t : Q) : Q :=
  if Qle_bool (Qabs t) 1 then atan_small t
  else if Qltb 0 t then pi0 / 2 - atan_small (/ t)
  else - (pi0 / 2) - atan_small (/ t).

Definition atan2_0 (y x : Q) : Q :=
  if Qeq_bool y 0 then (if Qltb x 0 then pi0 else 0)
  else if Qltb 0 x then rnd (atan0 (y / x))
  else if Qltb x 0 then
    (if Qltb 0 y then rnd (atan0 (y / x)) + pi0 else rnd (atan0 (y / x)) - pi0)
  else if Qltb 0 y then pi0 / 2
  else - (pi0 / 2).

Definition sqrt0 (x : Q) : Q :=
  if Qle_bool x 0 then 0
  else rnd (Z.sqrt (Qnum x * Zpos (Qden x) * 10 ^ 36) # (Qden x * 10 ^ 18)).

Definition asin0 (x : Q) : Q := atan2_0 x (sqrt0 (1 - x * x)).

(** [hash] differs from run to run; here both tuple hashes are [0]. *)
Definition E0 : MathEnv :=
  {| pi := pi0; cos := cos0; sin := sin0; atan2 := atan2_0; asin := asin0;
     sqrt := sqrt0;
     hash_name_ang_r := fun _ _ _ => 0%Z;
     hash_r_ang_name := fun _ _ _ => 0%Z |}.

End Env0.

(** ** Angular notions used by the statements *)

Module Angle.
Import Num Geo.
Local Open Scope Q_scope.

(** The angular distance [in_sector] computes between a candidate and the
    preferred direction. *)
Definition ang_dist (E : MathEnv) (x pref_angle : Q) : Q :=
  Qabs (fmod (_angle_normalize E (x - pref_angle) + pi E) (2 * pi E) - pi E).


End Angle.

(** ** Concrete scenes *)

Module Scenes.
Import Num Slot Env0.
Local Open Scope Q_scope.

Definition settings (ns : gmap string NodeItem) (ad : gmap string (list string))
    (last : gmap string Q) (lvl : string → Z) (sp : SpatialHash.t) : Scene :=
  {| nodes := ns; adj := ad; last_child_angle := last;
     _get_node_level := lvl; _spatial := sp;
     snap_step := 40; TARGET_EDGE := 180; MIN_CHORD_RATIO := 8 # 10 |}.

(** A lone root off the 40-grid, with a 180 x 240 box (so its collision
    radius, registered in the index, is 160). *)
Definition a1 : NodeItem :=
  {| name := "a"; pos := (20, 0); width := 180; height := 240 |}.

Definition sc1 : Scene :=
  settings {[ "a" := a1 ]} {[ "a" := [] ]} ∅ (fun _ => 0%Z)
    (SpatialHash.insert "a" 20 0 160 (SpatialHash.init 120)).

(** A lone root with a 1164 x 1552 box (collision radius 980), in an
    index of cell size 240: nothing within reach of the search is free. *)
Definition a4 : NodeItem :=
  {| name := "a"; pos := (0, 0); width := 1164; height := 1552 |}.

Definition sc4 : Scene :=
  settings {[ "a" := a4 ]} {[ "a" := [] ]} ∅ (fun _ => 0%Z)
    (SpatialHash.insert "a" 0 0 980 (SpatialHash.init 240)).




(** A lone root with a 300 x 400 box (collision radius 260). *)
Definition a6 : NodeItem :=
  {| name := "a"; pos := (0, 0); width := 300; height := 400 |}.

Definition sc6 : Scene :=
  settings {[ "a" := a6 ]} {[ "a" := [] ]} ∅ (fun _ => 0%Z)
    (SpatialHash.insert "a" 0 0 260 (SpatialHash.init 120)).

End Scenes.
Lemma elem_of_zrange lo hi i : i ∈ zrange lo hi ↔ lo <= i <= hi.
Proof.
  unfold zrange. rewrite list_elem_of_fmap. split.
  - intros (k & -> & Hk). apply elem_of_seq in Hk. lia.
  - intros H. exists (Z.to_nat (i - lo)). split; [lia|].
    apply elem_of_seq. lia.
Qed.

Lemma NoDup_zrange lo hi : NoDup (zrange lo hi).
Proof.
  unfold zrange. apply NoDup_fmap_2; [|apply NoDup_seq].
  intros a b H. lia.
Qed.

(** ** Facts about the spatial hash *)

Section SpatialHashFacts.
Import SpatialHash.

Lemma elem_of_keys_for c x y r ix iy :
  (ix, iy) ∈ keys_for c x y r ↔
    floordiv (x - r) (inject_Z c) <= ix <= floordiv (x + r) (inject_Z c) ∧
    floordiv (y - r) (inject_Z c) <= iy <= floordiv (y + r) (inject_Z c).
Proof.
  unfold keys_for. rewrite list_elem_of_bind. split.
  - intros (a & Hin & Ha). apply list_elem_of_bind in Hin as (b & Hin & Hb).
    apply list_elem_of_singleton in Hin. inversion Hin; subst.
    apply elem_of_zrange in Ha, Hb. done.
  - intros [Hx Hy]. exists ix. split; [|by apply elem_of_zrange].
    apply list_elem_of_bind. exists iy. split; [|by apply elem_of_zrange].
    by apply list_elem_of_singleton.
Qed.

Lemma bucket_add_spec name g k k' n :
  n ∈ bucket (bucket_add name g k) k' ↔
    n ∈ bucket g k' ∨ (n = name ∧ k' = k).
Proof.
  unfold bucket, bucket_add, dd_getitem.
  destruct (g !! k) as [b|] eqn:Hk; destruct (decide (k = k')) as [->|Hne].
  - rewrite lookup_insert_eq, Hk. simpl. set_solver.
  - rewrite lookup_insert_ne by done. naive_solver.
  - rewrite lookup_insert_eq, Hk. simpl. set_solver.
  - rewrite !lookup_insert_ne by done. naive_solver.
Qed.

Lemma bucket_discard_spec name g k k' n :
  n ∈ bucket (bucket_discard name g k) k' ↔
    n ∈ bucket g k' ∧ ¬ (n = name ∧ k' = k).
Proof.
  unfold bucket, bucket_discard.
  destruct (g !! k) as [s|] eqn:Hk.
  - destruct (decide (s = ∅)) as [->|Hs].
    + destruct (decide (k = k')) as [->|Hne].
      * rewrite Hk. simpl. set_solver.
      * naive_solver.
    + destruct (decide (s ∖ {[name]} = ∅)) as [He|He].
      * destruct (decide (k = k')) as [->|Hne].
        -- rewrite lookup_delete_eq, Hk. simpl. set_solver.
        -- rewrite lookup_delete_ne by done. naive_solver.
      * destruct (decide (k = k')) as [->|Hne].
        -- rewrite lookup_insert_eq, Hk. simpl. set_solver.
        -- rewrite lookup_insert_ne by done. naive_solver.
  - destruct (decide (k = k')) as [->|Hne].
    + rewrite Hk. simpl. set_solver.
    + naive_solver.
Qed.

Lemma foldl_bucket_add_spec name ks g k n :
  n ∈ bucket (foldl (bucket_add name) g ks) k ↔
    n ∈ bucket g k ∨ (n = name ∧ k ∈ ks).
Proof.
  revert g. induction ks as [|k0 ks IH]; intros g; simpl.
  - set_solver.
  - rewrite IH, bucket_add_spec. set_solver.
Qed.

Lemma foldl_bucket_discard_spec name ks g k n :
  n ∈ bucket (foldl (bucket_discard name) g ks) k ↔
    n ∈ bucket g k ∧ ¬ (n = name ∧ k ∈ ks).
Proof.
  revert g. induction ks as [|k0 ks IH]; intros g; simpl.
  - set_solver.
  - rewrite IH, bucket_discard_spec. set_solver.
Qed.

(** The query loop: the hits are the union of the buckets, and the grid
    comes out as it went in. *)
Lemma neighbors_fold ks hits g :
  foldl (fun '(hits, g) k => let '(b, g') := dd_get k g in (hits ∪ b, g'))
        (hits, g) ks
  = (hits ∪ ⋃ ((bucket g) <$> ks), g).
Proof.
  revert hits. induction ks as [|k ks IH]; intros hits; simpl.
  - f_equal. set_solver.
  - rewrite IH. f_equal. unfold bucket. set_solver.
Qed.

Lemma neighbors_st_eq x y r s :
  neighbors_st x y r s =
    (⋃ ((bucket (grid s)) <$> keys_for (cell s) x y r), s).
Proof.
  unfold neighbors_st. rewrite neighbors_fold. destruct s; simpl.
  f_equal. set_solver.
Qed.

Lemma elem_of_neighbors x y r s n :
  n ∈ neighbors x y r s ↔
    ∃ k, k ∈ keys_for (cell s) x y r ∧ n ∈ bucket (grid s) k.
Proof.
  unfold neighbors. rewrite neighbors_st_eq. simpl.
  rewrite elem_of_union_list. split.
  - intros (X & HX & Hn).
    apply list_elem_of_fmap in HX as (k & -> & Hk). eauto.
  - intros (k & Hk & Hn). exists (bucket (grid s) k). split; [|done].
    apply list_elem_of_fmap. eauto.
Qed.

End SpatialHashFacts.

(** ** Circles and the cells they cover *)

Lemma floordiv_mono (c x y : Q) :
  (0 < c)%Q → (x <= y)%Q → floordiv x c <= floordiv y c.
Proof.
  intros Hc Hxy. unfold floordiv. apply Qfloor_resp_le.
  unfold Qdiv. apply Qmult_le_compat_r; [done|].
  apply Qlt_le_weak, Qinv_lt_0_compat, Hc.
Qed.

(** Two intervals that meet share a grid column. *)
Lemma interval_meet (c a1 b1 a2 b2 : Q) :
  (0 < c)%Q → (a1 <= b1)%Q → (a2 <= b2)%Q → (a1 <= b2)%Q → (a2 <= b1)%Q →
  ∃ i : Z, (floordiv a1 c <= i <= floordiv b1 c) ∧
           (floordiv a2 c <= i <= floordiv b2 c).
Proof.
  intros Hc H1 H2 H12 H21.
  destruct (Qlt_le_dec a1 a2) as [Hlt|Hle].
  - exists (floordiv a2 c). repeat split; try lia;
      apply floordiv_mono; try done. by apply Qlt_le_weak.
  - exists (floordiv a1 c). repeat split; try lia;
      apply floordiv_mono; done.
Qed.

Lemma overlap_axis (d e s : Q) :
  (0 <= s)%Q → (d * d + e * e <= s * s)%Q → (d <= s)%Q.
Proof.
  intros Hs H. destruct (Qlt_le_dec s d) as [Hlt|]; [|done].
  exfalso. assert (0 <= e * e)%Q by nra. nra.
Qed.

Lemma footprints_meet (c : Z) (x1 y1 r1 x2 y2 r2 : Q) :
  0 < c → (0 <= r1)%Q → (0 <= r2)%Q →
  circles_overlap x1 y1 r1 x2 y2 r2 →
  ∃ k, k ∈ SpatialHash.keys_for c x1 y1 r1 ∧ k ∈ SpatialHash.keys_for c x2 y2 r2.
Proof.
  intros Hc Hr1 Hr2 Hov. unfold circles_overlap, dist2 in Hov.
  assert (Hcq : (0 < inject_Z c)%Q).
  { change 0%Q with (inject_Z 0). rewrite <- Zlt_Qlt. done. }
  assert (Hs : (0 <= r1 + r2)%Q) by lra.
  assert (Hx1 : (x1 - x2 <= r1 + r2)%Q) by (eapply overlap_axis; [done|apply Hov]).
  assert (Hx2 : (x2 - x1 <= r1 + r2)%Q).
  { eapply (overlap_axis _ (y1 - y2)); [done|]. nra. }
  assert (Hy1 : (y1 - y2 <= r1 + r2)%Q).
  { eapply (overlap_axis _ (x1 - x2)); [done|]. nra. }
  assert (Hy2 : (y2 - y1 <= r1 + r2)%Q).
  { eapply (overlap_axis _ (x1 - x2)); [done|]. nra. }
  destruct (interval_meet (inject_Z c) (x1 - r1) (x1 + r1) (x2 - r2) (x2 + r2))
    as (ix & Hix1 & Hix2); try lra.
  destruct (interval_meet (inject_Z c) (y1 - r1) (y1 + r1) (y2 - r2) (y2 + r2))
    as (iy & Hiy1 & Hiy2); try lra.
  exists (ix, iy). split; apply elem_of_keys_for; done.
Qed.


(** ** The cells of a bounding box *)

Section BoxFacts.
Import SpatialHash Index.

Lemma floordiv_ge_iff (c b : Q) (i : Z) :
  (0 < c)%Q → i <= floordiv b c ↔ (c * inject_Z i <= b)%Q.
Proof.
  intros Hc. unfold floordiv.
  assert (Hb : (b == c * (b / c))%Q).
  { field. intros Hz. rewrite Hz in Hc. by apply Qlt_irrefl in Hc. }
  split.
  - intros Hi. pose proof (Qfloor_le (b / c)) as Hfl.
    rewrite Zle_Qle in Hi. rewrite Hb. nra.
  - intros Hi. rewrite <- (Qfloor_Z i). apply Qfloor_resp_le.
    rewrite Hb in Hi. nra.
Qed.

Lemma floordiv_le_iff (c a : Q) (i : Z) :
  (0 < c)%Q → floordiv a c <= i ↔ (a < c * (inject_Z i + 1))%Q.
Proof.
  intros Hc.
  pose proof (floordiv_ge_iff c a (i + 1) Hc) as H.
  rewrite inject_Z_plus in H. change (inject_Z 1) with 1%Q in H.
  split.
  - intros Hi. apply Qnot_le_lt. intros Hle. apply H in Hle. lia.
  - intros Hlt. destruct (Z_le_gt_dec (floordiv a c) i) as [|Hgt]; [done|].
    exfalso. assert (Hi : i + 1 <= floordiv a c) by lia.
    apply H in Hi. lra.
Qed.

(** On one axis: the columns from that of [a] to that of [b] are those
    holding a point of [[a, b]]. *)
Lemma axis_box (c a b : Q) (i : Z) :
  (0 < c)%Q → (a <= b)%Q →
  floordiv a c <= i <= floordiv b c ↔
  ∃ u, (c * inject_Z i <= u ∧ u < c * (inject_Z i + 1) ∧ a <= u ∧ u <= b)%Q.
Proof.
  intros Hc Hab.
  rewrite (floordiv_le_iff c a i Hc), (floordiv_ge_iff c b i Hc). split.
  - intros [Ha Hb].
    destruct (Qlt_le_dec a (c * inject_Z i)) as [Hlt|Hle].
    + exists (c * inject_Z i)%Q. split_and!; lra.
    + exists a. split_and!; lra.
  - intros (u & H1 & H2 & H3 & H4). split; lra.
Qed.

(** [_keys_for] yields exactly the cells of the bounding box. *)
Lemma keys_for_box c x y r k :
  0 < c → (0 <= r)%Q → k ∈ keys_for c x y r ↔ box_covers c x y r k.
Proof.
  intros Hc Hr. destruct k as [ix iy]. rewrite elem_of_keys_for.
  assert (Hcq : (0 < inject_Z c)%Q).
  { change 0%Q with (inject_Z 0). rewrite <- Zlt_Qlt. done. }
  rewrite (axis_box (inject_Z c) (x - r) (x + r) ix Hcq) by lra.
  rewrite (axis_box (inject_Z c) (y - r) (y + r) iy Hcq) by lra.
  unfold box_covers, in_cell. cbn [fst snd]. split.
  - intros [(u & Hu1 & Hu2 & Hu3 & Hu4) (v & Hv1 & Hv2 & Hv3 & Hv4)].
    exists u, v. done.
  - intros (u & v & (Hu1 & Hu2 & Hv1 & Hv2) & Hu3 & Hu4 & Hv3 & Hv4).
    split; [exists u|exists v]; done.
Qed.

(** A cell the circle covers is a cell of its bounding box. *)
Lemma circle_covers_box c x y r k :
  (0 <= r)%Q → circle_covers c x y r k → box_covers c x y r k.
Proof.
  intros Hr (u & v & Hcell & Hd). exists u, v. split; [done|].
  unfold dist2 in Hd.
  assert (H1 : (u - x <= r)%Q) by (eapply overlap_axis; [done|apply Hd]).
  assert (H2 : (x - u <= r)%Q).
  { eapply (overlap_axis _ (u - x - (u - x) + (v - y))); [done|]. nra. }
  assert (H3 : (v - y <= r)%Q).
  { eapply (overlap_axis _ (u - x)); [done|]. nra. }
  assert (H4 : (y - v <= r)%Q).
  { eapply (overlap_axis _ (u - x)); [done|]. nra. }
  split_and!; lra.
Qed.

End BoxFacts.

(** ** Preservation of the index invariants *)

Section IndexFacts.
Import SpatialHash Index.

(** What the loops of the operations maintain, in terms of the keys
    [_keys_for] yields. *)
Local Abbreviation tracks reg s :=
  (∀ n k, n ∈ bucket (grid s) k ↔
     ∃ x y r, reg !! n = Some (x, y) ∧ radius s !! n = Some r ∧
              k ∈ keys_for (cell s) x y r).

Lemma tracks_insert (reg : registry) s n x y r :
  tracks reg s → dom reg = dom (radius s) → radius s !! n = None →
  tracks (<[n := (x, y)]> reg) (insert n x y r s).
Proof.
  intros H Hd Hn m k. simpl. rewrite foldl_bucket_add_spec, H. split.
  - intros [(x' & y' & r' & Hreg & Hr & Hk)|[-> Hk]].
    + assert (m ≠ n) by congruence.
      exists x', y', r'. by rewrite !lookup_insert_ne.
    + exists x, y, r. by rewrite !lookup_insert_eq.
  - intros (x' & y' & r' & Hreg & Hr & Hk).
    destruct (decide (m = n)) as [->|Hne].
    + rewrite lookup_insert_eq in Hreg; rewrite lookup_insert_eq in Hr.
      right. naive_solver.
    + rewrite lookup_insert_ne in Hreg by done;
        rewrite lookup_insert_ne in Hr by done. left. eauto 6.
Qed.

Lemma tracks_remove (reg : registry) s n x y :
  tracks reg s → reg !! n = Some (x, y) →
  tracks (delete n reg) (remove n x y s).
Proof.
  intros H Hn m k. simpl. rewrite foldl_bucket_discard_spec, H. split.
  - intros [(x' & y' & r' & Hreg & Hr & Hk) Hnot].
    destruct (decide (m = n)) as [->|Hne].
    + exfalso. apply Hnot. split; [done|].
      rewrite Hr. simpl. congruence.
    + exists x', y', r'. by rewrite !lookup_delete_ne.
  - intros (x' & y' & r' & Hreg & Hr & Hk).
    destruct (decide (m = n)) as [->|Hne].
    + by rewrite lookup_delete_eq in Hreg.
    + rewrite lookup_delete_ne in Hreg by done;
        rewrite lookup_delete_ne in Hr by done.
      split; [eauto 6|]. naive_solver.
Qed.

Lemma tracks_move (reg : registry) s n ox oy nx ny r :
  tracks reg s → reg !! n = Some (ox, oy) → radius s !! n = Some r →
  tracks (<[n := (nx, ny)]> reg) (move n ox oy nx ny s).
Proof.
  intros H Hn Hr m k. simpl. rewrite Hr. simpl.
  rewrite foldl_bucket_add_spec, foldl_bucket_discard_spec, H.
  rewrite !list_elem_of_filter.
  destruct (decide (m = n)) as [->|Hne].
  - rewrite lookup_insert_eq. split.
    + intros [[(x' & y' & r' & Hreg & Hr' & Hk) Hnot]|[_ [Hk1 Hk2]]].
      * assert (x' = ox ∧ y' = oy ∧ r' = r) as (-> & -> & ->)
          by (split_and!; congruence).
        exists nx, ny, r. split_and!; try done.
        destruct (decide (k ∈ keys_for (cell s) nx ny r)); [done|].
        exfalso. apply Hnot. done.
      * exists nx, ny, r. done.
    + intros (x' & y' & r' & Hreg & Hr' & Hk).
      assert (x' = nx ∧ y' = ny ∧ r' = r) as (-> & -> & ->)
        by (split_and!; congruence).
      destruct (decide (k ∈ keys_for (cell s) ox oy r)) as [Hin|Hout].
      * left. split; [eauto 6|]. intros [_ [Hc _]]. done.
      * right. done.
  - rewrite lookup_insert_ne by done. split.
    + intros [[Hm _]|[? _]]; done.
    + intros Hm. left. split; [done|]. naive_solver.
Qed.

(** With a positive cell size and radii that are not negative, the keys
    of [_keys_for] and the cells of the bounding box are the same. *)
Lemma tracks_box (reg : registry) s :
  0 < cell s → (∀ n r, radius s !! n = Some r → (0 <= r)%Q) →
  tracks reg s ↔
  ∀ n k, n ∈ bucket (grid s) k ↔
    ∃ x y r, reg !! n = Some (x, y) ∧ radius s !! n = Some r ∧
             box_covers (cell s) x y r k.
Proof.
  intros Hc Hrad.
  assert (Hiff : ∀ n k,
    (∃ x y r, reg !! n = Some (x, y) ∧ radius s !! n = Some r ∧
              k ∈ keys_for (cell s) x y r) ↔
    (∃ x y r, reg !! n = Some (x, y) ∧ radius s !! n = Some r ∧
              box_covers (cell s) x y r k)).
  { intros n k. split; intros (x & y & r & Hreg & Hr & Hk);
      exists x, y, r; (split; [done|]); (split; [done|]);
      apply (keys_for_box (cell s) x y r k Hc (Hrad n r Hr)); done. }
  split; intros H n k.
  - rewrite (H n k). apply Hiff.
  - rewrite (H n k). symmetry. apply Hiff.
Qed.

Lemma BoxInv_init c : BoxInv ∅ (init c).
Proof.
  split_and!.
  - simpl. lia.
  - by rewrite !dom_empty_L.
  - intros n r H. simpl in H. by rewrite lookup_empty in H.
  - intros n k. unfold bucket. simpl. rewrite lookup_empty. simpl. split.
    + set_solver.
    + intros (x & y & r & H & _). by rewrite lookup_empty in H.
Qed.

Lemma BoxInv_Covered reg s : BoxInv reg s → Covered reg s.
Proof.
  intros (Hc & Hd & Hrad & H). split; [done|]. intros n x y r k Hreg Hr Hk.
  apply H. exists x, y, r. split; [done|]. split; [done|].
  apply keys_for_box; eauto.
Qed.

Lemma BoxInv_insert reg s n x y r :
  BoxInv reg s → radius s !! n = None → (0 <= r)%Q →
  BoxInv (<[n := (x, y)]> reg) (insert n x y r s).
Proof.
  intros (Hc & Hd & Hrad & H) Hn Hr.
  assert (Hrad' : ∀ m r', radius (insert n x y r s) !! m = Some r' → (0 <= r')%Q).
  { intros m r'. simpl. intros Hm.
    apply lookup_insert_Some in Hm as [[_ <-]|[_ Hm]]; eauto. }
  split_and!.
  - done.
  - simpl. rewrite !dom_insert_L. by rewrite Hd.
  - done.
  - apply (tracks_box _ (insert n x y r s) Hc Hrad').
    apply tracks_insert; [|done|done].
    by apply (tracks_box reg s Hc Hrad).
Qed.

Lemma BoxInv_remove reg s n x y :
  BoxInv reg s → reg !! n = Some (x, y) →
  BoxInv (delete n reg) (remove n x y s).
Proof.
  intros (Hc & Hd & Hrad & H) Hn.
  assert (Hrad' : ∀ m r', radius (remove n x y s) !! m = Some r' → (0 <= r')%Q).
  { intros m r'. simpl. intros Hm.
    apply lookup_delete_Some in Hm as [_ Hm]. eauto. }
  split_and!.
  - done.
  - simpl. rewrite !dom_delete_L. by rewrite Hd.
  - done.
  - apply (tracks_box _ (remove n x y s) Hc Hrad').
    apply tracks_remove; [|done].
    by apply (tracks_box reg s Hc Hrad).
Qed.

Lemma BoxInv_move reg s n ox oy nx ny :
  BoxInv reg s → reg !! n = Some (ox, oy) →
  BoxInv (<[n := (nx, ny)]> reg) (move n ox oy nx ny s).
Proof.
  intros (Hc & Hd & Hrad & H) Hn.
  assert (is_Some (radius s !! n)) as [r Hr].
  { apply elem_of_dom. rewrite <- Hd. apply elem_of_dom. eauto. }
  split_and!.
  - done.
  - simpl. rewrite dom_insert_L, Hd.
    assert (n ∈ dom (radius s)) by (apply elem_of_dom; eauto). set_solver.
  - done.
  - apply (tracks_box _ (move n ox oy nx ny s) Hc Hrad).
    apply (tracks_move reg s n ox oy nx ny r); [|done|done].
    by apply (tracks_box reg s Hc Hrad).
Qed.

(** The cell (-1, -1) of a 120-grid holds no point within 70 of
    (60, 60). *)
Lemma corner_cell_out_of_reach : ¬ circle_covers 120 60 60 70 (-1, -1).
Proof.
  intros (u & v & (Hu1 & Hu2 & Hv1 & Hv2) & Hd).
  unfold dist2 in Hd. cbn [fst snd] in *.
  change (inject_Z 120) with 120%Q in *.
  change (inject_Z (-1)) with (-1)%Q in *.
  assert (Hu : (60 <= 60 - u)%Q) by lra.
  assert (Hv : (60 <= 60 - v)%Q) by lra.
  assert (H1 : (3600 <= (u - 60) * (u - 60))%Q) by nra.
  assert (H2 : (3600 <= (v - 60) * (v - 60))%Q) by nra.
  lra.
Qed.

Lemma corner_cell_holds_id :
  "a" ∈ bucket (grid (insert "a" 60 60 70 (init 120))) (-1, -1).
Proof.
  apply (foldl_bucket_add_spec "a" (keys_for 120 60 60 70) ∅ (-1, -1) "a").
  right. split; [reflexivity|].
  apply elem_of_keys_for. vm_compute. split; split; discriminate.
Qed.

End IndexFacts.

Section CoverFacts.
Import SpatialHash Index.

Lemma Covered_init c : Covered ∅ (init c).
Proof. apply BoxInv_Covered, BoxInv_init. Qed.

Lemma Covered_insert reg s n x y r :
  Covered reg s → Covered (<[n := (x, y)]> reg) (insert n x y r s).
Proof.
  intros [Hd H]. split.
  - simpl. rewrite !dom_insert_L. by rewrite Hd.
  - intros m x' y' r' k. simpl. rewrite foldl_bucket_add_spec.
    destruct (decide (m = n)) as [->|Hne].
    + rewrite !lookup_insert_eq. intros [= <- <-] [= <-] Hk. by right.
    + rewrite !lookup_insert_ne by done. intros Hreg Hr Hk. left. eauto.
Qed.

Lemma Covered_remove reg s n x y :
  Covered reg s → Covered (delete n reg) (remove n x y s).
Proof.
  intros [Hd H]. split.
  - simpl. rewrite !dom_delete_L. by rewrite Hd.
  - intros m x' y' r' k. simpl. rewrite foldl_bucket_discard_spec.
    destruct (decide (m = n)) as [->|Hne].
    + by rewrite lookup_delete_eq.
    + rewrite !lookup_delete_ne by done. intros Hreg Hr Hk.
      split; [eauto|]. naive_solver.
Qed.

Lemma Covered_move reg s n ox oy nx ny :
  Covered reg s → reg !! n = Some (ox, oy) →
  Covered (<[n := (nx, ny)]> reg) (move n ox oy nx ny s).
Proof.
  intros [Hd H] Hn.
  assert (is_Some (radius s !! n)) as [r Hr].
  { apply elem_of_dom. rewrite <- Hd. apply elem_of_dom. eauto. }
  split.
  - simpl. rewrite dom_insert_L, Hd.
    assert (n ∈ dom (radius s)) by (apply elem_of_dom; eauto). set_solver.
  - intros m x' y' r' k. simpl. rewrite Hr. simpl.
    rewrite foldl_bucket_add_spec, foldl_bucket_discard_spec.
    rewrite !list_elem_of_filter.
    destruct (decide (m = n)) as [->|Hne].
    + rewrite lookup_insert_eq. intros [= <- <-] Hr' Hk.
      assert (r' = r) as -> by congruence.
      destruct (decide (k ∈ keys_for (cell s) ox oy r)) as [Hin|Hout].
      * left. split; [eauto|]. intros [_ [Hc _]]. done.
      * right. done.
    + rewrite lookup_insert_ne by done. intros Hreg Hr' Hk.
      left. split; [eauto|]. naive_solver.
Qed.

Lemma run_op_cell o reg s : cell (snd (run_op o (reg, s))) = cell s.
Proof. destruct o; reflexivity. Qed.

Lemma Covered_run_op o reg s :
  Covered reg s → op_ok reg o →
  Covered (fst (run_op o (reg, s))) (snd (run_op o (reg, s))).
Proof.
  intros Hc Hok. destruct o as [n x y r|n x y|n ox oy nx ny]; simpl in *.
  - by apply Covered_insert.
  - by apply Covered_remove.
  - rewrite Hok. by apply Covered_move.
Qed.

Lemma Covered_run ops : ∀ reg s,
  Covered reg s → trace_ok ops (reg, s) →
  Covered (fst (run ops (reg, s))) (snd (run ops (reg, s))) ∧
  cell (snd (run ops (reg, s))) = cell s.
Proof.
  induction ops as [|o ops IH]; intros reg s Hc Hok.
  - done.
  - cbn [run trace_ok fst] in *. destruct Hok as [Hok1 Hok2].
    pose proof (Covered_run_op o reg s Hc Hok1) as Hc'.
    pose proof (run_op_cell o reg s) as Hcell.
    destruct (run_op o (reg, s)) as [reg' s']. cbn [fst snd] in *.
    destruct (IH reg' s' Hc' Hok2) as [H1 H2]. split; [done|congruence].
Qed.

(** A covered index answers every overlap. *)
Lemma Covered_neighbors reg s x y r n xn yn rn :
  Covered reg s → 0 < cell s →
  reg !! n = Some (xn, yn) → radius s !! n = Some rn →
  (0 <= r)%Q → (0 <= rn)%Q →
  circles_overlap xn yn rn x y r →
  n ∈ neighbors x y r s.
Proof.
  intros [_ H] Hc Hreg Hr Hr0 Hrn Hov.
  destruct (footprints_meet (cell s) xn yn rn x y r) as (k & Hk1 & Hk2);
    try done.
  apply elem_of_neighbors. exists k. split; [done|]. eauto.
Qed.

End CoverFacts.

(** ** Facts about the numbers *)

Section NumFacts.
Import Num.
Local Open Scope Q_scope.

Lemma Qltb_true a b : Qltb a b = true ↔ a < b.
Proof.
  unfold Qltb. rewrite negb_true_iff. split.
  - intros H. apply Qnot_le_lt. intros Hle.
    apply Qle_bool_iff in Hle. congruence.
  - intros H. destruct (Qle_bool b a) eqn:E; [|done].
    apply Qle_bool_iff in E. exfalso. eapply Qlt_not_le; eauto.
Qed.

Lemma Qltb_false a b : Qltb a b = false ↔ b <= a.
Proof.
  unfold Qltb. rewrite negb_false_iff. apply Qle_bool_iff.
Qed.

(** [fmod a m] is [a] shifted by a whole number of [m]s into [[0, m)]. *)
Lemma fmod_spec a m :
  0 < m → 0 <= fmod a m ∧ fmod a m < m ∧
          fmod a m == a - m * inject_Z (Qfloor (a / m)).
Proof.
  intros Hm. unfold fmod.
  pose proof (Qfloor_le (a / m)) as Hlo.
  pose proof (Qlt_floor (a / m)) as Hhi.
  assert (Ham : a == m * (a / m)).
  { field. intros Hz. rewrite Hz in Hm. by apply Qlt_irrefl in Hm. }
  set (q := a / m) in *. set (f := inject_Z (Qfloor q)) in *.
  assert (Hf1 : inject_Z (Qfloor q + 1) == f + 1).
  { unfold f. rewrite inject_Z_plus. reflexivity. }
  rewrite Hf1 in Hhi.
  split_and!; [| |reflexivity].
  - rewrite Ham at 1. nra.
  - rewrite Ham at 1. nra.
Qed.

Lemma py_round_comp a b : a == b → py_round a = py_round b.
Proof.
  intros H. unfold py_round. rewrite (Qfloor_comp _ _ H).
  assert (Hc : Qcompare (a - inject_Z (Qfloor b)) (1 # 2)
               = Qcompare (b - inject_Z (Qfloor b)) (1 # 2)).
  { apply Qcompare_comp; [by rewrite H|reflexivity]. }
  by rewrite Hc.
Qed.

Lemma sqrt_lt_false d s :
  0 <= d → 0 <= s → sqrt_lt d s = false → s * s <= d.
Proof.
  intros Hd Hs. unfold sqrt_lt. rewrite andb_false_iff.
  rewrite !Qltb_false. intros [H|H]; [|done].
  assert (Hz : s * s == 0) by nra. rewrite Hz. done.
Qed.

End NumFacts.

Section GeoFacts.
Import Num Geo.
Local Open Scope Q_scope.
Variable E : MathEnv.
Hypothesis pi_pos : 0 < pi E.

Lemma twopi_pos : 0 < twopi E.
Proof using pi_pos. unfold twopi. lra. Qed.

(** A normalised angle lies in [[0, 2 pi)] and differs from its argument
    by whole turns. *)
Lemma angle_normalize_spec a :
  0 <= _angle_normalize E a ∧ _angle_normalize E a < twopi E ∧
  ∃ k : Z, _angle_normalize E a == a - twopi E * inject_Z k.
Proof using pi_pos.
  unfold _angle_normalize.
  destruct (fmod_spec a (twopi E) twopi_pos) as (H0 & H1 & H2).
  destruct (Qltb (fmod a (twopi E)) 0) eqn:Hneg.
  - apply Qltb_true in Hneg. lra.
  - split_and!; try done. eauto.
Qed.

End GeoFacts.

(** ** Facts about the free-slot search *)

Section SlotFacts.
Import Num Geo Slot.
Local Open Scope Q_scope.
Variable E : MathEnv.

Lemma first_found_Found {A B} (f : A → outcome B) l b :
  first_found f l = Found b → ∃ a, a ∈ l ∧ f a = Found b.
Proof.
  induction l as [|a l IH]; cbn [first_found]; [done|].
  destruct (f a) as [b'| |] eqn:Hfa; [|intros H|done].
  - intros [= <-]. exists a. split; [left|done].
  - destruct (IH H) as (a' & Hin & Ha'). exists a'.
    split; [by right|done].
Qed.

Lemma first_found_NotFound {A B} (f : A → outcome B) l :
  first_found f l = NotFound → ∀ a, a ∈ l → f a = NotFound.
Proof.
  induction l as [|a l IH]; cbn [first_found]; intros H a' Hin.
  - by apply elem_of_nil in Hin.
  - destruct (f a) as [b'| |] eqn:Hfa; [done| |done].
    apply elem_of_cons in Hin as [->|Hin]; [done|]. by apply IH.
Qed.

Lemma first_found_Raised {A B} (f : A → outcome B) l :
  first_found f l = Raised → ∃ a, a ∈ l ∧ f a = Raised.
Proof.
  induction l as [|a l IH]; cbn [first_found]; [done|].
  destruct (f a) as [b'| |] eqn:Hfa; [done|intros H|intros _].
  - destruct (IH H) as (a' & Hin & Ha'). exists a'. split; [by right|done].
  - exists a. split; [left|done].
Qed.

(** The first accepted element comes after rejected ones only. *)
Lemma first_found_prefix {A B} (f : A → outcome B) l b :
  first_found f l = Found b →
  ∃ l1 a l2, l = l1 ++ a :: l2 ∧ f a = Found b ∧
             ∀ a', a' ∈ l1 → f a' = NotFound.
Proof.
  induction l as [|a l IH]; cbn [first_found]; [done|].
  destruct (f a) as [b'| |] eqn:Hfa; [|intros H|done].
  - intros [= <-]. exists [], a, l. split_and!; [done|done|].
    intros a' Hin. by apply elem_of_nil in Hin.
  - destruct (IH H) as (l1 & a' & l2 & -> & Ha' & Hl1).
    exists (a :: l1), a', l2. split_and!; [done|done|].
    intros x Hin. apply elem_of_cons in Hin as [->|Hin]; [done|]. by apply Hl1.
Qed.

(** [_snap] raises exactly when the snap step is zero. *)
Lemma snap_is_Some sc q : ¬ snap_step sc == 0 → is_Some (_snap sc q).
Proof.
  intros Hne. unfold _snap.
  destruct (Qeq_bool (snap_step sc) 0) eqn:Hz; [|eauto].
  apply Qeq_bool_iff in Hz. contradiction.
Qed.

Lemma snap_None sc q : _snap sc q = None ↔ snap_step sc == 0.
Proof.
  unfold _snap. destruct (Qeq_bool (snap_step sc) 0) eqn:Hz.
  - apply Qeq_bool_iff in Hz. done.
  - split; [done|]. intros H. apply Qeq_bool_iff in H. congruence.
Qed.

Lemma try_angle_Found sc it a p ring_i r ang res :
  try_angle E sc it a p ring_i r ang = Found res →
  res = (ang, r) ∧
  in_sector E (p_sector p) (p_pref_angle p) (p_cone_deg p) ang = true ∧
  ∃ pt, tested_point E sc it (p_ring p) ring_i r ang = Some pt ∧
        _is_pos_free E sc pt (global_min_dist a) = true.
Proof.
  unfold try_angle.
  destruct (in_sector _ _ _ _ ang); [|done].
  destruct (tested_point _ _ _ _ _ _ _) as [pt|]; [|done].
  destruct (_is_pos_free _ _ _ _) eqn:Hfree; [|done].
  intros [= <-]. eauto.
Qed.

Lemma try_angle_NotFound sc it a p ring_i r ang :
  try_angle E sc it a p ring_i r ang = NotFound →
  in_sector E (p_sector p) (p_pref_angle p) (p_cone_deg p) ang = true →
  ∃ pt, tested_point E sc it (p_ring p) ring_i r ang = Some pt ∧
        _is_pos_free E sc pt (global_min_dist a) = false.
Proof.
  unfold try_angle. intros H Hsec. rewrite Hsec in H.
  destruct (tested_point _ _ _ _ _ _ _) as [pt|]; [|done].
  destruct (_is_pos_free _ _ _ _) eqn:Hfree; [done|]. eauto.
Qed.

Lemma try_angle_Raised sc it a p ring_i r ang :
  try_angle E sc it a p ring_i r ang = Raised ↔
  in_sector E (p_sector p) (p_pref_angle p) (p_cone_deg p) ang = true ∧
  snap_step sc == 0.
Proof.
  unfold try_angle, tested_point.
  destruct (in_sector _ _ _ _ ang); [|by split; [|intros [? _]]].
  destruct (_snap sc _) as [pt|] eqn:Hsnap.
  - split.
    + by destruct (_is_pos_free _ _ _ _).
    + intros [_ Hz]. eapply snap_None in Hz. rewrite Hz in Hsnap. done.
  - apply snap_None in Hsnap. done.
Qed.

(** What an accepted candidate went through. *)
Lemma search_Found sc it a p ang r :
  search E sc it a p = Found (ang, r) →
  ∃ (ring_i : Z) (pt : Q * Q),
    (0 <= ring_i <= max_rings a)%Z ∧
    r = p_r0 p + inject_Z ring_i * p_ring p ∧
    ang ∈ angle_candidates E (p_ang_center p) (p_angle_limit_deg p) ∧
    in_sector E (p_sector p) (p_pref_angle p) (p_cone_deg p) ang = true ∧
    tested_point E sc it (p_ring p) ring_i r ang = Some pt ∧
    _is_pos_free E sc pt (global_min_dist a) = true.
Proof.
  unfold search. intros H.
  apply first_found_Found in H as (ring_i & Hring & H).
  apply elem_of_zrange in Hring. unfold try_ring in H.
  apply first_found_Found in H as (ang' & Hang & H).
  apply try_angle_Found in H as (Heq & Hsec & pt & Hpt & Hfree).
  injection Heq as -> ->.
  exists ring_i, pt. split; [exact Hring|]. split; [reflexivity|].
  split; [exact Hang|]. split; [exact Hsec|]. split; [exact Hpt|exact Hfree].
Qed.

(** Nothing was accepted: every in-sector candidate of every ring was
    snapped and found colliding. *)
Lemma search_NotFound sc it a p :
  search E sc it a p = NotFound →
  ∀ ring_i ang, (0 <= ring_i <= max_rings a)%Z →
    ang ∈ angle_candidates E (p_ang_center p) (p_angle_limit_deg p) →
    in_sector E (p_sector p) (p_pref_angle p) (p_cone_deg p) ang = true →
    ∃ pt, tested_point E sc it (p_ring p) ring_i
            (p_r0 p + inject_Z ring_i * p_ring p) ang = Some pt ∧
          _is_pos_free E sc pt (global_min_dist a) = false.
Proof.
  unfold search. intros H ring_i ang Hring Hang Hsec.
  pose proof (first_found_NotFound _ _ H ring_i) as Hr.
  unfold try_ring in Hr.
  pose proof (first_found_NotFound _ _ (Hr ltac:(by apply elem_of_zrange)) ang
                Hang) as Ha.
  by apply try_angle_NotFound in Ha.
Qed.

(** The search raises only through [_snap]: some candidate was in the
    sector and the snap step is zero. *)
Lemma search_Raised sc it a p :
  search E sc it a p = Raised →
  snap_step sc == 0 ∧
  ∃ ang, ang ∈ angle_candidates E (p_ang_center p) (p_angle_limit_deg p) ∧
         in_sector E (p_sector p) (p_pref_angle p) (p_cone_deg p) ang = true.
Proof.
  unfold search. intros H.
  apply first_found_Raised in H as (ring_i & _ & H). unfold try_ring in H.
  apply first_found_Raised in H as (ang & Hang & H).
  apply try_angle_Raised in H as [Hsec Hz]. eauto.
Qed.

(** The new node's radius is never below 70. *)
Lemma r_new_ge sc md : 70 <= r_new E sc md.
Proof.
  unfold r_new, _node_radius_px.
  eapply Qle_trans; [|apply Q.le_max_r].
  pose proof (Q.le_max_l 120 (_calculate_average_node_size E sc)). lra.
Qed.

End SlotFacts.

Section FreeFacts.
Import Num Geo Slot.
Local Open Scope Q_scope.
Variable E : MathEnv.

(** A position [_is_pos_free] accepts keeps the two radii from every
    registered node. *)
Lemma is_pos_free_sound reg sc p md n x y rn :
  index_consistent reg sc →
  _is_pos_free E sc p md = true →
  reg !! n = Some (x, y) →
  SpatialHash.radius (_spatial sc) !! n = Some rn →
  (rn + r_new E sc md) * (rn + r_new E sc md) <= dist2 x y (fst p) (snd p).
Proof.
  intros (Hcov & Hcell & Hnodes & Hrad) Hfree Hreg Hr.
  pose proof (r_new_ge E sc md) as Hnew.
  pose proof (Hrad n rn Hr) as Hrn.
  destruct (Qlt_le_dec (dist2 x y (fst p) (snd p))
              ((rn + r_new E sc md) * (rn + r_new E sc md))) as [Hlt|]; [|done].
  exfalso.
  assert (Hin : n ∈ SpatialHash.neighbors (fst p) (snd p) (r_new E sc md)
                      (_spatial sc)).
  { eapply Covered_neighbors; try eassumption; [lra|].
    unfold circles_overlap. by apply Qlt_le_weak. }
  unfold _is_pos_free in Hfree. rewrite forallb_forall in Hfree.
  specialize (Hfree n). rewrite <- list_elem_of_In, elem_of_elements in Hfree.
  specialize (Hfree Hin). unfold clear_of in Hfree.
  destruct (Hnodes n x y Hreg) as (it & Hit & Hpos).
  rewrite Hit, Hr, Hpos in Hfree. cbn [default fst snd] in Hfree.
  apply negb_true_iff in Hfree.
  set (dx := x - fst p) in *. set (dy := y - snd p) in *.
  assert (Hd : 0 <= dx * dx + dy * dy) by nra.
  assert (Hs : 0 <= rn + r_new E sc md) by lra.
  pose proof (sqrt_lt_false _ _ Hd Hs Hfree) as Hge.
  unfold dist2 in Hlt. fold dx dy in Hlt. lra.
Qed.

(** The point the search tested for the candidate it accepted is clear of
    every registered node. *)
Lemma search_tested_point_clear reg sc it a p ang r :
  index_consistent reg sc →
  search E sc it a p = Found (ang, r) →
  ∃ (ring_i : Z) (q : Q * Q),
    (0 <= ring_i <= max_rings a)%Z ∧
    r = p_r0 p + inject_Z ring_i * p_ring p ∧
    tested_point E sc it (p_ring p) ring_i r ang = Some q ∧
    ∀ n x y rn,
      reg !! n = Some (x, y) →
      SpatialHash.radius (_spatial sc) !! n = Some rn →
      (rn + r_new E sc (global_min_dist a))
        * (rn + r_new E sc (global_min_dist a)) <= dist2 x y (fst q) (snd q).
Proof.
  intros Hok Hs.
  apply search_Found in Hs as (ring_i & q & Hring & Hr & _ & _ & Hq & Hfree).
  exists ring_i, q. split; [done|]. split; [done|]. split; [done|].
  intros n x y rn Hreg Hrad. eapply is_pos_free_sound; eauto.
Qed.

(** On the first ring there is no jitter: the tested point is the point
    the caller places. *)
Lemma tested_point_first_ring sc it rg r ang :
  tested_point E sc it rg 0 r ang = placed_point E sc it (ang, r).
Proof.
  unfold tested_point, placed_point, _snap. cbn [fst snd Z.eqb].
  destruct (Qeq_bool (snap_step sc) 0); [done|].
  f_equal; f_equal; f_equal; f_equal; apply py_round_comp;
    unfold Qdiv; apply Qmult_comp; try reflexivity; ring.
Qed.

End FreeFacts.

Section ReturnFacts.
Import Num Geo Slot.
Local Open Scope Q_scope.
Variable E : MathEnv.

(** The two ways [_find_free_slot] returns. *)
Lemma find_free_slot_accept sc it a p res :
  plan E sc it a = Some p →
  search E sc it a p = Found res →
  is_Some (adj sc !! name it) →
  _find_free_slot E sc it a
    = Some (res, set_last_child_angle (name it) (fst res) sc).
Proof.
  intros Hp Hs [nbs Hadj]. unfold _find_free_slot, return_slot.
  by rewrite Hp, Hs, Hadj.
Qed.

Lemma find_free_slot_fallback sc it a p :
  plan E sc it a = Some p →
  search E sc it a p = NotFound →
  is_Some (adj sc !! name it) →
  _find_free_slot E sc it a
    = Some ((p_ang_center p, p_r0 p + p_ring p),
            set_last_child_angle (name it) (p_ang_center p) sc).
Proof.
  intros Hp Hs [nbs Hadj]. unfold _find_free_slot, return_slot.
  by rewrite Hp, Hs, Hadj.
Qed.


End ReturnFacts.

(** ** The concrete scenes, evaluated *)

Section SceneFacts.
Import Num Geo Slot Env0 Scenes.
Local Open Scope Q_scope.

Lemma sc1_accepts :
  ∃ p ang r,
    plan E0 sc1 a1 default_args = Some p ∧
    search E0 sc1 a1 default_args p = Found (ang, r) ∧
    ang == 0 ∧ r == 320 ∧ p_base_radius p == 160 ∧
    tested_point E0 sc1 a1 (p_ring p) 1 r ang = Some (360, 0) ∧
    placed_point E0 sc1 a1 (ang, r) = Some (320, 0).
Proof.
  eexists _, _, _.
  split; [vm_compute; reflexivity|].
  split; [vm_compute; reflexivity|].
  split_and!; vm_compute; reflexivity.
Qed.

Lemma sc4_exhausted :
  ∃ p,
    plan E0 sc4 a4 default_args = Some p ∧
    search E0 sc4 a4 default_args p = NotFound ∧
    p_ang_center p == 0 ∧ p_r0 p == 960 ∧ p_ring p == 160 ∧
    tested_point E0 sc4 a4 (p_ring p) 1 (p_r0 p + inject_Z 1 * p_ring p)
      (p_ang_center p) = Some (1120, 0) ∧
    placed_point E0 sc4 a4 (p_ang_center p, p_r0 p + p_ring p)
      = Some (1120, 0).
Proof.
  eexists.
  split; [vm_compute; reflexivity|].
  split; [vm_compute; reflexivity|].
  split; [vm_compute; reflexivity|].
  split; [vm_compute; reflexivity|].
  split; [vm_compute; reflexivity|].
  split; vm_compute; reflexivity.
Qed.

Lemma sc1_consistent : index_consistent {[ "a" := (20, 0) ]} sc1.
Proof.
  split_and!.
  - apply (Covered_insert ∅ (SpatialHash.init 120) "a" 20 0 160),
      Covered_init.
  - vm_compute. reflexivity.
  - intros n x y Hn. apply lookup_singleton_Some in Hn as [<- [= <- <-]].
    exists a1. split; reflexivity.
  - intros n r Hn.
    change (<["a" := 160]> (∅ : gmap string Q) !! n = Some r) in Hn.
    apply lookup_insert_Some in Hn as [[_ <-]|[_ Hn]]; [discriminate|].
    by rewrite lookup_empty in Hn.
Qed.

End SceneFacts.

(** ** Sectors, cones and candidates *)

Section AngleFacts.
Import Num Geo Slot Angle.
Local Open Scope Q_scope.
Variable E : MathEnv.
Hypothesis pi_pos : 0 < pi E.

Lemma fmod_shift a m :
  0 < m → ∃ k : Z, fmod a m == a - m * inject_Z k ∧ 0 <= fmod a m ∧ fmod a m < m.
Proof.
  intros Hm. destruct (fmod_spec a m Hm) as (H0 & H1 & H2).
  exists (Qfloor (a / m)). done.
Qed.

(** The distance [in_sector] measures is an angular distance: at most
    [pi], and the absolute difference of the two angles up to whole
    turns. *)
Lemma ang_dist_spec x pref :
  ang_dist E x pref <= pi E ∧
  ∃ k : Z, ang_dist E x pref == Qabs (x - pref - twopi E * inject_Z k).
Proof using pi_pos.
  unfold ang_dist.
  destruct (angle_normalize_spec E pi_pos (x - pref)) as (_ & _ & j & Hj).
  assert (H2 : 0 < 2 * pi E) by lra.
  destruct (fmod_shift (_angle_normalize E (x - pref) + pi E) (2 * pi E) H2)
    as (m & Hm & Hlo & Hhi).
  set (f := fmod (_angle_normalize E (x - pref) + pi E) (2 * pi E)) in *.
  split.
  - apply Qabs_Qle_condition. split; lra.
  - exists (j + m)%Z. apply Qabs_wd. rewrite inject_Z_plus.
    unfold twopi in *. rewrite Hm, Hj. ring.
Qed.





End AngleFacts.

(** ** What the plan of a search settles *)

Section PlanFacts.
Import Num Geo Slot Angle.
Local Open Scope Q_scope.
Variable E : MathEnv.
Hypothesis pi_pos : 0 < pi E.











End PlanFacts.

Section SearchFacts.
Import Num Geo Slot Angle.
Local Open Scope Q_scope.
Variable E : MathEnv.




End SearchFacts.

Section MoreSceneFacts.
Import Num Geo Slot Angle Env0 Scenes.
Local Open Scope Q_scope.



End MoreSceneFacts.

(** ** The claims about the spatial index *)

Section IndexClaims.
Import SpatialHash Index.

(** C2. After any trace of [insert]/[move]/[remove] issued on a fresh
    index, with [remove] and [move] given the coordinates the id is
    registered at, a query [neighbors x y r] returns every registered id
    whose circle (registered centre, cached radius) overlaps the query
    circle: the answer has no false negatives. *)
Theorem neighbors_no_false_negatives (c : Z) (ops : list op)
    (x y r : Q) (n : string) (xn yn rn : Q) :
  trace_ok ops (∅, init c) →
  fst (run ops (∅, init c)) !! n = Some (xn, yn) →
  radius (snd (run ops (∅, init c))) !! n = Some rn →
  (0 <= r)%Q → (0 <= rn)%Q →
  circles_overlap xn yn rn x y r →
  n ∈ neighbors x y r (snd (run ops (∅, init c))).
Proof.
  intros Hok Hreg Hr Hr0 Hrn Hov.
  destruct (Covered_run ops ∅ (init c) (Covered_init c) Hok) as [Hc Hcell].
  eapply Covered_neighbors; try eassumption.
  rewrite Hcell. simpl. lia.
Qed.

(** C3, as amended.  Each index operation preserves the data-model
    invariant read with bounding boxes: from any state in which each id of
    the radius cache sits in exactly the grid cells the bounding box of
    its registered circle covers and each id absent from the cache sits in
    no cell ([BoxInv]), an [insert] of an id the cache does not hold (with
    a radius that is not negative), a [remove] at the id's registered
    position and a [move] from the id's registered position each give a
    state of the same kind. *)
Theorem index_ops_preserve_box_invariant (reg : registry) (s : t) :
  BoxInv reg s →
  (∀ n x y r, radius s !! n = None → (0 <= r)%Q →
     BoxInv (<[n := (x, y)]> reg) (insert n x y r s)) ∧
  (∀ n x y, reg !! n = Some (x, y) →
     BoxInv (delete n reg) (remove n x y s)) ∧
  (∀ n ox oy nx ny, reg !! n = Some (ox, oy) →
     BoxInv (<[n := (nx, ny)]> reg) (move n ox oy nx ny s)).
Proof.
  intros HI. split_and!.
  - intros. by apply BoxInv_insert.
  - intros. by apply BoxInv_remove.
  - intros. by apply BoxInv_move.
Qed.

(** C10. [neighbors] is a read-only query: the index it hands back is
    the index it was given (no bucket is materialised, the radius cache is
    untouched), so asking twice gives the same answer. *)
Theorem neighbors_read_only (x y r : Q) (s : t) :
  snd (neighbors_st x y r s) = s ∧
  fst (neighbors_st x y r (snd (neighbors_st x y r s)))
    = fst (neighbors_st x y r s).
Proof.
  assert (H : snd (neighbors_st x y r s) = s) by (by rewrite neighbors_st_eq).
  split; [done|]. by rewrite H.
Qed.

End IndexClaims.

Section IndexWitnesses.
Import SpatialHash Index.

Lemma neighbors_no_false_negatives_witness :
  "a" ∈ neighbors 150 0 10
    (snd (run [Insert "a" 0 0 50; Insert "b" 300 0 50;
               Move "a" 0 0 100 0; Remove "b" 300 0] (∅, init 120))).
Proof.
  apply (neighbors_no_false_negatives 120
           [Insert "a" 0 0 50; Insert "b" 300 0 50;
            Move "a" 0 0 100 0; Remove "b" 300 0]
           150 0 10 "a" 100 0 50).
  - vm_compute. repeat split.
  - vm_compute. reflexivity.
  - vm_compute. reflexivity.
  - vm_compute. discriminate.
  - vm_compute. discriminate.
  - vm_compute. discriminate.
Defined.

(** C3 as stated fails: the empty index satisfies the invariant read
    with the cells the circle covers, and one [insert] of a new id breaks
    it.  With cells of size 120, the circle of radius 70 about (60, 60)
    is registered in the corner cell (-1, -1) of its bounding box, which
    holds no point within 70 of the centre. *)
Lemma insert_breaks_circle_invariant :
  CircleInv ∅ (init 120) ∧
  radius (init 120) !! "a" = None ∧
  "a" ∈ bucket (grid (insert "a" 60 60 70 (init 120))) (-1, -1) ∧
  ¬ circle_covers 120 60 60 70 (-1, -1) ∧
  ¬ CircleInv (<["a" := (60, 60)%Q]> ∅) (insert "a" 60 60 70 (init 120)).
Proof.
  split_and!.
  - split_and!.
    + vm_compute. reflexivity.
    + by rewrite !dom_empty_L.
    + intros n r H. cbn [init radius] in H. by rewrite lookup_empty in H.
    + intros n k. unfold bucket. cbn [init grid]. rewrite lookup_empty.
      cbn [default]. split.
      * set_solver.
      * intros (x & y & r & H & _). by rewrite lookup_empty in H.
  - reflexivity.
  - apply corner_cell_holds_id.
  - apply corner_cell_out_of_reach.
  - intros (_ & _ & _ & H).
    pose proof corner_cell_holds_id as Hin.
    apply H in Hin as (x & y & r & Hreg & Hr & Hk).
    apply lookup_singleton_Some in Hreg as [_ [= <- <-]].
    cbn [insert radius init] in Hr.
    rewrite lookup_insert_eq in Hr. injection Hr as <-.
    by apply corner_cell_out_of_reach.
Qed.

Lemma index_ops_preserve_box_invariant_witness :
  BoxInv (<["a" := (0, 0)%Q]> ∅) (insert "a" 0 0 50 (init 120)) ∧
  BoxInv (delete "a" (<["a" := (0, 0)%Q]> ∅))
         (remove "a" 0 0 (insert "a" 0 0 50 (init 120))) ∧
  BoxInv (<["a" := (200, 0)%Q]> (<["a" := (0, 0)%Q]> ∅))
         (move "a" 0 0 200 0 (insert "a" 0 0 50 (init 120))).
Proof.
  destruct (index_ops_preserve_box_invariant ∅ (init 120) (BoxInv_init 120))
    as (Hins & _ & _).
  assert (H50 : (0 <= 50)%Q) by (vm_compute; discriminate).
  pose proof (Hins "a" 0%Q 0%Q 50%Q eq_refl H50) as H1.
  destruct (index_ops_preserve_box_invariant _ _ H1) as (_ & Hrem & Hmov).
  split_and!.
  - exact H1.
  - apply Hrem. reflexivity.
  - apply Hmov. reflexivity.
Defined.

End IndexWitnesses.

(** ** The claims about the free-slot search *)

Section SlotClaims.
Import Num Geo Slot Angle Env0 Scenes.
Local Open Scope Q_scope.

(** C1, at the failing input.  The scene [sc1] is a lone root at (20, 0)
    whose index entry is up to date.  The search rejects the whole first
    ring, accepts the jittered and snapped point (360, 0) of the second
    ring and returns [(0, 320)]; the point the caller derives from that
    pair snaps to (320, 0), which is closer to the root than the two
    radii. *)
Theorem find_slot_returns_colliding_slot :
  index_consistent {[ "a" := (20, 0) ]} sc1 ∧
  ∃ p ang r sc',
    plan E0 sc1 a1 default_args = Some p ∧
    search E0 sc1 a1 default_args p = Found (ang, r) ∧
    _find_free_slot E0 sc1 a1 default_args = Some ((ang, r), sc') ∧
    ang == 0 ∧ r == 320 ∧
    tested_point E0 sc1 a1 (p_ring p) 1 r ang = Some (360, 0) ∧
    placed_point E0 sc1 a1 (ang, r) = Some (320, 0) ∧
    SpatialHash.radius (_spatial sc1) !! "a" = Some 160 ∧
    dist2 20 0 320 0
      < (160 + r_new E0 sc1 (global_min_dist default_args))
        * (160 + r_new E0 sc1 (global_min_dist default_args)).
Proof.
  split; [apply sc1_consistent|].
  destruct sc1_accepts as (p & ang & r & Hp & Hs & Hang & Hr & _ & Ht & Hpl).
  exists p, ang, r, (set_last_child_angle "a" ang sc1).
  split; [exact Hp|]. split; [exact Hs|].
  split.
  { apply (find_free_slot_accept E0 sc1 a1 default_args p (ang, r) Hp Hs).
    vm_compute. eauto. }
  split; [exact Hang|]. split; [exact Hr|].
  split; [exact Ht|]. split; [exact Hpl|].
  split; vm_compute; reflexivity.
Qed.

(** C4, at the failing input.  On [sc4] (a lone root whose registered
    circle, of radius 980, blocks everything the search can reach) no
    candidate is accepted: the rings 960, 1120, .. 1920 are tried, so one
    ring step beyond the last radius tried is 2080.  [_find_free_slot]
    returns the gap-centre angle with [r0 + ring] = 1120 instead: the
    radius of the second ring, whose centre candidate the search has just
    snapped to (1120, 0), tested and rejected, as is the point the caller
    places for the returned pair; the point at 2080 would have been
    free. *)
Theorem fallback_returns_second_ring_radius :
  ∃ p res sc',
    plan E0 sc4 a4 default_args = Some p ∧
    search E0 sc4 a4 default_args p = NotFound ∧
    _find_free_slot E0 sc4 a4 default_args = Some (res, sc') ∧
    fst res = p_ang_center p ∧
    p_r0 p + inject_Z (max_rings default_args) * p_ring p == 1920 ∧
    snd res == 1120 ∧
    snd res == p_r0 p + inject_Z 1 * p_ring p ∧
    ¬ snd res
      == p_r0 p + inject_Z (max_rings default_args) * p_ring p + p_ring p ∧
    tested_point E0 sc4 a4 (p_ring p) 1 (p_r0 p + inject_Z 1 * p_ring p)
      (fst res) = Some (1120, 0) ∧
    placed_point E0 sc4 a4 res = Some (1120, 0) ∧
    _is_pos_free E0 sc4 (1120, 0) (global_min_dist default_args) = false ∧
    _is_pos_free E0 sc4 (2080, 0) (global_min_dist default_args) = true.
Proof.
  destruct sc4_exhausted as (p & Hp & Hs & Hc & Hr0 & Hring & Ht & Hpl).
  exists p, (p_ang_center p, p_r0 p + p_ring p),
    (set_last_child_angle "a" (p_ang_center p) sc4).
  split; [exact Hp|]. split; [exact Hs|].
  split.
  { apply (find_free_slot_fallback E0 sc4 a4 default_args p Hp Hs).
    vm_compute. eauto. }
  cbn [fst snd max_rings default_args].
  change (inject_Z 6) with 6. change (inject_Z 1) with 1 in *.
  split; [reflexivity|]. split; [lra|]. split; [lra|]. split; [lra|].
  split; [intros H; lra|].
  split; [exact Ht|]. split; [exact Hpl|].
  split; vm_compute; reflexivity.
Qed.

End SlotClaims.

(** ** The claims about the direction of a slot *)

Section AngleClaims.
Import Num Geo Slot Angle.
Local Open Scope Q_scope.



End AngleClaims.

Section AngleWitnesses.
Import Num Geo Slot Angle Env0 Scenes.
Local Open Scope Q_scope.





End AngleWitnesses.
